(** * Span annotation baseline: [Evaluator.predict] of submission-random/run.py

    The Python source is

<<
    regex = re.compile(r"\w+", re.UNICODE)
    for match in regex.finditer(text):
        category = choice(["Q", "A", "O"])
        if category in ("Q", "A"):
            a, b = match.span()
            yield (a, b, category)
>>

    A [str] is a sequence of code points, modelled as [list Z]; offsets are
    Python integers, modelled in [Z].  The scan of the compiled pattern is
    [finditer]; the global pseudo-random generator is an explicit state
    threaded through [choice]; a raised exception is [None]. *)

From Equations Require Import Equations.
From Stdlib Require Import String Ascii.
From Stdlib Require Import List ZArith Bool Lia Sorted.
Import ListNotations.
Local Open Scope Z_scope.

(** ** Documents *)

Definition codepoint := Z.
Definition str := list codepoint.

(** [len(text)] *)
Definition len {A : Type} (s : list A) : Z := Z.of_nat (length s).

(** The code points of an ASCII literal. *)
Fixpoint codepoints (s : string) : str :=
  match s with
  | EmptyString => []
  | String c s' => Z.of_nat (nat_of_ascii c) :: codepoints s'
  end.

(** ** Character classes *)

(** The ASCII digits and letters. *)
Definition ascii_alnum (c : codepoint) : bool :=
  ((48 <=? c) && (c <=? 57)) || ((65 <=? c) && (c <=? 90)) || ((97 <=? c) && (c <=? 122)).

(** ** Instances used in the examples *)

(** A classification with no alphanumeric code point outside ASCII. *)
Definition ascii_only : codepoint -> bool := fun _ => false.

(** A generator that replays a tape of prepared values; the value read is
    reduced below the bound asked for, and an exhausted tape answers 0. *)
Definition tape := list Z.

Definition tape_randbelow (n : Z) (g : tape) : Z * tape :=
  match g with
  | [] => (0, [])
  | x :: g' => (x mod n, g')
  end.

(** The document and the draws of the scenario: indices 0, 2, 1, 2 into
    ["Q", "A", "O"], that is "Q", "O", "A", "O". *)
Definition sky_document : str := codepoints "Is sky blue? Yes.".

Definition qoao : tape := [0; 2; 1; 2].

(** A document with no word code point. *)
Definition punctuation : str := codepoints " ?! ... ".

(** ** Sequences *)

Inductive subsequence {A : Type} : list A -> list A -> Prop :=
| subsequence_nil : forall l, subsequence [] l
| subsequence_keep : forall x l1 l2, subsequence l1 l2 -> subsequence (x :: l1) (x :: l2)
| subsequence_skip : forall x l1 l2, subsequence l1 l2 -> subsequence l1 (x :: l2).

(** [seq[i]] on a Python list: negative indices count from the end, and an
    index out of range raises [IndexError]. *)
Definition getitem {A : Type} (seq : list A) (i : Z) : option A :=
  if (0 <=? i) && (i <? len seq) then nth_error seq (Z.to_nat i)
  else if (- len seq <=? i) && (i <? 0) then nth_error seq (Z.to_nat (i + len seq))
  else None.

(** Half-open spans [(start, end)]. *)
Definition span := (Z * Z)%type.

Definition precedes (x y : span) : Prop := snd x <= fst y.

Definition disjoint (x y : span) : Prop :=
  forall i, ~ (fst x <= i < snd x /\ fst y <= i < snd y).

(** The triples [(a, b, category)] that [predict] yields. *)
Definition prediction := (Z * Z * string)%type.

Definition position (p : prediction) : span := fst p.
Definition label (p : prediction) : string := snd p.

(** A span, and a prediction, moved [d] offsets to the right. *)
Definition shift_span (d : Z) (m : span) : span := (fst m + d, snd m + d).

Definition shift_prediction (d : Z) (p : prediction) : prediction :=
  (fst (position p) + d, snd (position p) + d, label p).

(** The offset [i] lies in the half-open span [m]. *)
Definition covers (m : span) (i : Z) : Prop := fst m <= i < snd m.

Section Evaluator.

(** The alphanumeric classification of the Unicode character database for
    the code points outside ASCII (what [str.isalnum] answers there). *)
Variable unicode_alnum : codepoint -> bool.

(** The state of the module-level generator of [random], and the primitive
    [_randbelow(n)] that [choice] calls: a value and the next state. *)
Variable Rng : Type.
Variable randbelow : Z -> Rng -> Z * Rng.

(** *** The regular expression engine on [\w+] *)

Definition Py_UNICODE_ISALNUM (c : codepoint) : bool :=
  if c <? 128 then ascii_alnum c else unicode_alnum c.

(** The category [\w] under [re.UNICODE]: alphanumeric or underscore. *)
Definition SRE_UNI_IS_WORD (c : codepoint) : bool :=
  Py_UNICODE_ISALNUM c || (c =? 95).

(** The greedy repeat: how many code points at the head of [s] are in [\w]. *)
Fixpoint word_repeat (s : str) : nat :=
  match s with
  | [] => 0%nat
  | c :: s' => if SRE_UNI_IS_WORD c then S (word_repeat s') else 0%nat
  end.

(** [finditer_from s pos]: the scan over the rest [s] of the document that
    starts at offset [pos].  At each offset the pattern is tried: it needs one
    word code point and then takes as many as follow; the scan goes on from
    the end of the match, or one code point further when there is none. *)
Equations? finditer_from (s : str) (pos : Z) : list span by wf (length s) lt :=
  finditer_from [] pos := [];
  finditer_from (c :: s') pos with SRE_UNI_IS_WORD c => {
    | false := finditer_from s' (pos + 1);
    | true :=
        (pos, pos + 1 + Z.of_nat (word_repeat s'))
          :: finditer_from (skipn (word_repeat s') s')
                           (pos + 1 + Z.of_nat (word_repeat s')) }.
Proof.
  all: simpl; try lia.
  pose proof (length_skipn (word_repeat s') s'). lia.
Qed.

(** [[m.span() for m in regex.finditer(text)]] *)
Definition finditer (text : str) : list span := finditer_from text 0.

(** *** Maximal runs of word code points, as the specification words them *)

Definition char_at (text : str) (i : Z) : option codepoint :=
  if i <? 0 then None else nth_error text (Z.to_nat i).

Definition word_at (text : str) (i : Z) : bool :=
  match char_at text i with
  | Some c => SRE_UNI_IS_WORD c
  | None => false
  end.

(** [[a, b)] holds word code points only and cannot be extended on either
    side: the neighbour is the end of the document or not a word code point. *)
Definition maximal_word_run (text : str) (a b : Z) : Prop :=
  0 <= a /\ a < b /\ b <= len text /\
  (forall i, a <= i < b -> word_at text i = true) /\
  word_at text (a - 1) = false /\ word_at text b = false.

(** *** Computations that read the generator and may raise *)

Definition M (A : Type) : Type := Rng -> option (A * Rng).

Definition ret {A : Type} (x : A) : M A := fun g => Some (x, g).

Definition raise {A : Type} : M A := fun _ => None.

Definition bind {A B : Type} (m : M A) (k : A -> M B) : M B :=
  fun g => match m g with
           | Some (x, g') => k x g'
           | None => None
           end.

Notation "x <- m ;; k" := (bind m (fun x => k))
  (at level 61, m at next level, right associativity).

(** [random.choice(seq)]: [IndexError] on an empty sequence, else
    [seq[self._randbelow(len(seq))]]. *)
Definition choice {A : Type} (seq : list A) : M A :=
  if len seq =? 0 then raise
  else
    i <- (fun g => Some (randbelow (len seq) g)) ;;
    match getitem seq i with
    | Some x => ret x
    | None => raise
    end.

Definition categories : list string := ["Q"; "A"; "O"]%string.

(** [category in ("Q", "A")] *)
Definition is_emitted (category : string) : bool :=
  existsb (String.eqb category) ["Q"; "A"]%string.

(** One turn of the loop on the match [m]: what it yields. *)
Definition loop_body (m : span) : M (list prediction) :=
  category <- choice categories ;;
  if is_emitted category then
    let '(a, b) := m in ret [(a, b, category)]
  else ret [].

(** The loop over the matches, collecting what is yielded in order. *)
Fixpoint for_each_match (ms : list span) : M (list prediction) :=
  match ms with
  | [] => ret []
  | m :: ms' =>
      ys <- loop_body m ;;
      zs <- for_each_match ms' ;;
      ret (ys ++ zs)
  end.

(** [list(Evaluator().predict(text))]: the predictions in the order they are
    yielded, with the state the generator is left in. *)
Definition predict (text : str) : M (list prediction) :=
  for_each_match (finditer text).

(** The same loop keeping the yields of each turn apart. *)
Fixpoint turns (ms : list span) : M (list (list prediction)) :=
  match ms with
  | [] => ret []
  | m :: ms' =>
      ys <- loop_body m ;;
      zs <- turns ms' ;;
      ret (ys :: zs)
  end.

(** The generator object that [predict(text)] returns, as the matches it has
    still to visit.  [gen_next] is one [next(gen)]: the loop runs on to its
    next [yield] and hands over the triple with the generator to resume, or
    runs off the end of the matches ([StopIteration], here [None]). *)
Fixpoint gen_next (ms : list span) : M (option (prediction * list span)) :=
  match ms with
  | [] => ret None
  | m :: ms' =>
      ys <- loop_body m ;;
      match ys with
      | y :: _ => ret (Some (y, ms'))
      | [] => gen_next ms'
      end
  end.

(** [list(gen)]: [next] until [StopIteration]; [fuel] bounds the calls. *)
Fixpoint gen_list (fuel : nat) (ms : list span) : M (list prediction) :=
  match fuel with
  | O => raise
  | S fuel' =>
      r <- gen_next ms ;;
      match r with
      | None => ret []
      | Some (y, ms') => ys <- gen_list fuel' ms' ;; ret (y :: ys)
      end
  end.

(** The generator after [k] calls of [choice(["Q", "A", "O"])], and the value
    that the call number [k] (from 0) reads. *)
Fixpoint advance (k : nat) (g : Rng) : Rng :=
  match k with
  | O => g
  | S k' => advance k' (snd (randbelow 3 g))
  end.

Definition draw (k : nat) (g : Rng) : Z := fst (randbelow 3 (advance k g)).

(** The category that the call number [k] returns, if it returns. *)
Definition drawn (k : nat) (g : Rng) : option string := getitem categories (draw k g).

(** What a turn yields on the match [m] when the category drawn is [c]. *)
Definition emit (m : span) (c : string) : list prediction :=
  if is_emitted c then [(fst m, snd m, c)] else [].

(** The shape of a turn on [m]: the span with the label "Q" or "A", or nothing. *)
Definition turn_shape (m : span) (ys : list prediction) : Prop :=
  ys = [] \/ exists c, (c = "Q"%string \/ c = "A"%string) /\ ys = [(fst m, snd m, c)].

(** ** Properties of the tokenizer *)

Lemma len_nil (A : Type) : len (@nil A) = 0.
Proof. reflexivity. Qed.

Lemma len_cons (A : Type) (x : A) (l : list A) : len (x :: l) = 1 + len l.
Proof. unfold len. simpl length. lia. Qed.

Lemma len_app (A : Type) (l1 l2 : list A) : len (l1 ++ l2) = len l1 + len l2.
Proof. unfold len. rewrite length_app. lia. Qed.

Lemma len_nonneg (A : Type) (l : list A) : 0 <= len l.
Proof. unfold len. lia. Qed.

Lemma char_at_cons (c : codepoint) (s : str) (i : Z) :
  0 < i -> char_at (c :: s) i = char_at s (i - 1).
Proof.
  intros Hi. unfold char_at.
  destruct (Z.ltb_spec i 0); [lia|]. destruct (Z.ltb_spec (i - 1) 0); [lia|].
  replace (Z.to_nat i) with (S (Z.to_nat (i - 1))) by lia. reflexivity.
Qed.

Lemma word_at_cons (c : codepoint) (s : str) (i : Z) :
  0 < i -> word_at (c :: s) i = word_at s (i - 1).
Proof. intros Hi. unfold word_at. now rewrite char_at_cons. Qed.

Lemma word_at_head (c : codepoint) (s : str) : word_at (c :: s) 0 = SRE_UNI_IS_WORD c.
Proof. reflexivity. Qed.

Lemma word_at_before (s : str) (i : Z) : i < 0 -> word_at s i = false.
Proof.
  intros Hi. unfold word_at, char_at. destruct (Z.ltb_spec i 0); [reflexivity | lia].
Qed.

Lemma word_at_inside (s : str) (i : Z) : word_at s i = true -> 0 <= i < len s.
Proof.
  unfold word_at, char_at. destruct (Z.ltb_spec i 0); [discriminate|].
  destruct (nth_error s (Z.to_nat i)) eqn:E; [|discriminate].
  intros _. assert (Z.to_nat i < length s)%nat by (apply nth_error_Some; congruence).
  unfold len. lia.
Qed.

Lemma word_at_after (s : str) (i : Z) : len s <= i -> word_at s i = false.
Proof.
  intros Hi. destruct (word_at s i) eqn:E; [|reflexivity].
  apply word_at_inside in E. lia.
Qed.

Lemma word_at_app_r (w r : str) (i : Z) :
  len w <= i -> word_at (w ++ r) i = word_at r (i - len w).
Proof.
  revert i. induction w as [|c w IH]; intros i Hi.
  - rewrite len_nil. simpl. f_equal. lia.
  - rewrite len_cons in *. pose proof (len_nonneg _ w).
    simpl app. rewrite word_at_cons by lia. rewrite IH by lia. f_equal. lia.
Qed.

Lemma word_at_app_l (w r : str) (i : Z) :
  Forall (fun c => SRE_UNI_IS_WORD c = true) w -> 0 <= i < len w ->
  word_at (w ++ r) i = true.
Proof.
  intros Hw. revert i. induction Hw as [|c w Hc Hw IH]; intros i Hi.
  - rewrite len_nil in Hi. lia.
  - rewrite len_cons in Hi. simpl app.
    destruct (Z.eq_dec i 0) as [->|Hne].
    + now rewrite word_at_head.
    + rewrite word_at_cons by lia. apply IH. lia.
Qed.

Lemma word_repeat_le (s : str) : (word_repeat s <= length s)%nat.
Proof.
  induction s as [|c s IH]; simpl; [lia|].
  destruct (SRE_UNI_IS_WORD c); simpl; lia.
Qed.

Lemma word_repeat_firstn (s : str) :
  Forall (fun c => SRE_UNI_IS_WORD c = true) (firstn (word_repeat s) s).
Proof.
  induction s as [|c s IH]; simpl; [constructor|].
  destruct (SRE_UNI_IS_WORD c) eqn:E; simpl; constructor; assumption.
Qed.

Lemma word_repeat_skipn (s : str) : word_at (skipn (word_repeat s) s) 0 = false.
Proof.
  induction s as [|c s IH]; simpl; [reflexivity|].
  destruct (SRE_UNI_IS_WORD c) eqn:E; simpl; [assumption|].
  now rewrite word_at_head.
Qed.

Lemma len_firstn_word_repeat (s : str) :
  len (firstn (word_repeat s) s) = Z.of_nat (word_repeat s).
Proof.
  unfold len. rewrite length_firstn. pose proof (word_repeat_le s). lia.
Qed.

(** A document that starts with a code point outside [\w] has the runs of
    its tail, one offset further. *)
Lemma maximal_word_run_skip (c : codepoint) (s : str) (a b : Z) :
  SRE_UNI_IS_WORD c = false ->
  maximal_word_run (c :: s) a b <-> maximal_word_run s (a - 1) (b - 1).
Proof.
  intros Hc. unfold maximal_word_run. rewrite len_cons. split.
  - intros (Ha & Hab & Hb & Hin & Hl & Hr).
    assert (a <> 0).
    { intros ->. specialize (Hin 0 ltac:(lia)). rewrite word_at_head in Hin. congruence. }
    repeat split; try lia.
    + intros i Hi. rewrite <- (Hin (i + 1)) by lia. rewrite word_at_cons by lia.
      f_equal. lia.
    + destruct (Z.eq_dec a 1) as [->|]; [apply word_at_before; lia|].
      rewrite <- Hl. rewrite word_at_cons by lia. reflexivity.
    + rewrite <- Hr. rewrite word_at_cons by lia. reflexivity.
  - intros (Ha & Hab & Hb & Hin & Hl & Hr).
    repeat split; try lia.
    + intros i Hi. rewrite word_at_cons by lia. apply Hin. lia.
    + destruct (Z.eq_dec a 1) as [->|]; [now rewrite word_at_head|].
      rewrite word_at_cons by lia. assumption.
    + rewrite word_at_cons by lia. assumption.
Qed.

(** A document [w ++ r] where [w] is a non-empty block of word code points
    and [r] does not start with one has the run [w] and then the runs of
    [r], shifted by the length of [w]. *)
Lemma maximal_word_run_block (w r : str) (a b : Z) :
  Forall (fun c => SRE_UNI_IS_WORD c = true) w -> 0 < len w ->
  word_at r 0 = false ->
  maximal_word_run (w ++ r) a b <->
  (a = 0 /\ b = len w) \/ maximal_word_run r (a - len w) (b - len w).
Proof.
  intros Hw Hlen Hr0. unfold maximal_word_run. rewrite len_app.
  pose proof (len_nonneg _ r) as Hr. split.
  - intros (Ha & Hab & Hb & Hin & Hl & Hrt).
    destruct (Z.eq_dec a 0) as [->|Hne].
    + left. split; [reflexivity|].
      destruct (Z.lt_trichotomy b (len w)) as [Hlt|[Heq|Hgt]]; [|assumption|].
      * rewrite (word_at_app_l w r b Hw) in Hrt by lia. discriminate.
      * specialize (Hin (len w) ltac:(lia)).
        rewrite word_at_app_r, Z.sub_diag in Hin by lia. congruence.
    + right.
      assert (len w <= a - 1).
      { destruct (Z.le_gt_cases (len w) (a - 1)); [assumption|].
        rewrite (word_at_app_l w r (a - 1) Hw) in Hl by lia. discriminate. }
      repeat split; try lia.
      * intros i Hi. rewrite <- (Hin (i + len w)) by lia.
        rewrite word_at_app_r by lia. f_equal. lia.
      * rewrite <- Hl. rewrite word_at_app_r by lia. f_equal. lia.
      * rewrite <- Hrt. rewrite word_at_app_r by lia. reflexivity.
  - intros [[-> ->]|(Ha & Hab & Hb & Hin & Hl & Hrt)].
    + repeat split; try lia.
      * intros i Hi. apply word_at_app_l; [assumption | lia].
      * rewrite word_at_app_r, Z.sub_diag by lia. assumption.
    + assert (a - len w <> 0).
      { intros E. specialize (Hin 0 ltac:(lia)). congruence. }
      repeat split; try lia.
      * intros i Hi. rewrite word_at_app_r by lia. apply Hin. lia.
      * rewrite word_at_app_r by lia. rewrite <- Hl. f_equal. lia.
      * rewrite word_at_app_r by lia. assumption.
Qed.

Lemma maximal_word_run_nil (a b : Z) : ~ maximal_word_run [] a b.
Proof. unfold maximal_word_run. rewrite len_nil. lia. Qed.

(** The scan finds the maximal runs of the rest it is given, all of them
    and nothing else. *)
Lemma finditer_from_runs (s : str) (pos a b : Z) :
  In (a, b) (finditer_from s pos) <-> maximal_word_run s (a - pos) (b - pos).
Proof.
  revert a b. funelim (finditer_from s pos); intros a b.
  - simpl. pose proof (maximal_word_run_nil (a - pos) (b - pos)). tauto.
  - set (n := word_repeat s') in *.
    assert (Hsplit : c :: s' = (c :: firstn n s') ++ skipn n s')
      by (simpl; now rewrite firstn_skipn).
    assert (Hlen : len (c :: firstn n s') = 1 + Z.of_nat n)
      by (rewrite len_cons; unfold n; now rewrite len_firstn_word_repeat).
    rewrite Hsplit at 1.
    rewrite maximal_word_run_block; cycle 1.
    { constructor; [assumption | apply word_repeat_firstn]. }
    { lia. }
    { apply word_repeat_skipn. }
    rewrite Hlen. simpl In. rewrite H.
    replace (a - (pos + 1 + Z.of_nat n)) with (a - pos - (1 + Z.of_nat n)) by lia.
    replace (b - (pos + 1 + Z.of_nat n)) with (b - pos - (1 + Z.of_nat n)) by lia.
    split; (intros [E|E]; [left | right; exact E]).
    + inversion E; subst. lia.
    + destruct E. f_equal; lia.
  - rewrite maximal_word_run_skip by assumption.
    rewrite H. replace (a - (pos + 1)) with (a - pos - 1) by lia.
    replace (b - (pos + 1)) with (b - pos - 1) by lia. reflexivity.
Qed.

Lemma finditer_from_bounds (s : str) (pos a b : Z) :
  In (a, b) (finditer_from s pos) -> pos <= a /\ a < b /\ b <= pos + len s.
Proof.
  intros H. apply finditer_from_runs in H. unfold maximal_word_run in H. lia.
Qed.

(** A rest that does not start with a word code point has no match at its
    first offset. *)
Lemma finditer_from_late (s : str) (pos a b : Z) :
  word_at s 0 = false -> In (a, b) (finditer_from s pos) -> pos < a.
Proof.
  intros H0 H. apply finditer_from_runs in H.
  destruct H as (Ha & Hab & _ & Hin & _).
  destruct (Z.eq_dec a pos) as [->|]; [|lia].
  specialize (Hin (pos - pos) ltac:(lia)). rewrite Z.sub_diag in Hin. congruence.
Qed.

(** Between two matches there is at least one code point. *)
Lemma finditer_from_gaps (s : str) (pos : Z) :
  StronglySorted (fun x y : span => snd x < fst y) (finditer_from s pos).
Proof.
  funelim (finditer_from s pos).
  - constructor.
  - constructor; [assumption|].
    apply Forall_forall. intros [a b] Hin. simpl.
    eapply finditer_from_late; [apply word_repeat_skipn | exact Hin].
  - assumption.
Qed.

Lemma finditer_from_length (s : str) (pos : Z) :
  (length (finditer_from s pos) <= length s)%nat.
Proof.
  funelim (finditer_from s pos); simpl.
  - lia.
  - pose proof (length_skipn (word_repeat s') s'). lia.
  - lia.
Qed.

Lemma finditer_nonempty_spans (text : str) :
  Forall (fun m : span => 0 <= fst m /\ fst m < snd m /\ snd m <= len text) (finditer text).
Proof.
  apply Forall_forall. intros [a b] Hin. simpl.
  apply finditer_from_bounds in Hin. lia.
Qed.

(** *** Sorted lists and their subsequences *)

Lemma StronglySorted_weaken (A : Type) (R R' : A -> A -> Prop) (l : list A) :
  (forall x y, In x l -> In y l -> R x y -> R' x y) ->
  StronglySorted R l -> StronglySorted R' l.
Proof.
  intros Himp Hs. induction Hs as [|x l Hs IH Hall].
  - constructor.
  - constructor.
    + apply IH. intros y z Hy Hz. apply Himp; now right.
    + rewrite Forall_forall in *. intros y Hy.
      apply Himp; [now left | now right | now apply Hall].
Qed.

Lemma subsequence_In (A : Type) (l1 l2 : list A) (x : A) :
  subsequence l1 l2 -> In x l1 -> In x l2.
Proof.
  induction 1 as [l | y l1 l2 _ IH | y l1 l2 _ IH]; simpl; intros Hin.
  - contradiction.
  - destruct Hin; [now left | right; now apply IH].
  - right. now apply IH.
Qed.

Lemma subsequence_sorted (A : Type) (R : A -> A -> Prop) (l1 l2 : list A) :
  subsequence l1 l2 -> StronglySorted R l2 -> StronglySorted R l1.
Proof.
  induction 1 as [l | y l1 l2 Hsub IH | y l1 l2 Hsub IH]; intros Hs.
  - constructor.
  - inversion Hs as [|? ? Hs' Hall]; subst. constructor; [now apply IH|].
    rewrite Forall_forall in *. intros z Hz. apply Hall.
    eapply subsequence_In; eassumption.
  - inversion Hs; subst. now apply IH.
Qed.

Lemma sorted_irrefl_NoDup (A : Type) (R : A -> A -> Prop) (l : list A) :
  (forall x, ~ R x x) -> StronglySorted R l -> NoDup l.
Proof.
  intros Hirr Hs. induction Hs as [|x l Hs IH Hall]; constructor; [|assumption].
  intros Hin. rewrite Forall_forall in Hall. exact (Hirr x (Hall x Hin)).
Qed.

(** Spans with a start before their end, one ending before the other
    starts: increasing starts, no common offset. *)
Lemma separated_spans (x y : span) :
  fst x < snd x -> snd x < fst y -> fst x < fst y /\ precedes x y /\ disjoint x y.
Proof. unfold precedes, disjoint. intros Hx Hxy. repeat split; lia. Qed.

Lemma finditer_separated (text : str) :
  StronglySorted (fun x y : span => fst x < fst y /\ precedes x y /\ disjoint x y)
                 (finditer text).
Proof.
  apply StronglySorted_weaken with (R := fun x y : span => snd x < fst y).
  - intros x y Hx _ Hxy. apply separated_spans; [|assumption].
    pose proof (finditer_nonempty_spans text) as Hall.
    rewrite Forall_forall in Hall. now apply Hall.
  - apply finditer_from_gaps.
Qed.

(** ** The tokenizer claims *)

(** C1. Tokenizer fidelity: the spans that the scan for [\w+] produces are
    exactly the maximal contiguous runs of word code points of the document,
    each produced once. A run is a span of word code points only that is
    bounded on each side by the end of the document or a code point that is
    not a word one, so no run is split or merged and no span holds a code
    point outside [\w]. *)
Theorem tokenizer_fidelity (text : str) :
  NoDup (finditer text) /\
  (forall a b, In (a, b) (finditer text) <-> maximal_word_run text a b) /\
  (forall a b i, In (a, b) (finditer text) -> a <= i < b -> word_at text i = true).
Proof.
  assert (Hruns : forall a b, In (a, b) (finditer text) <-> maximal_word_run text a b).
  { intros a b. unfold finditer. rewrite finditer_from_runs.
    now rewrite !Z.sub_0_r. }
  split; [|split].
  - apply sorted_irrefl_NoDup with (R := fun x y : span => fst x < fst y).
    + intros x. lia.
    + eapply StronglySorted_weaken; [|apply finditer_separated].
      intros x y _ _ H. apply H.
  - exact Hruns.
  - intros a b i Hin Hi. apply Hruns in Hin.
    destruct Hin as (_ & _ & _ & Hall & _). now apply Hall.
Qed.

(** C6. Tokenizer span ordering: the scan produces a finite list of spans, no
    longer than the document; every span has its start before its end, and of
    two spans the earlier one starts first and ends at or before the start of
    the later one, so no two of them overlap. *)
Theorem tokenizer_ordering (text : str) :
  (length (finditer text) <= length text)%nat /\
  Forall (fun m : span => fst m < snd m) (finditer text) /\
  StronglySorted (fun x y : span => fst x < fst y) (finditer text) /\
  StronglySorted precedes (finditer text) /\
  StronglySorted disjoint (finditer text).
Proof.
  split; [apply finditer_from_length|].
  split.
  { eapply Forall_impl; [|apply finditer_nonempty_spans]. simpl. intros m H. lia. }
  repeat split;
    (eapply StronglySorted_weaken; [|apply finditer_separated]);
    intros x y _ _ H; apply H.
Qed.

(** ** Properties of the classifier *)

Lemma getitem_categories (d : Z) :
  0 <= d < 3 -> exists c, getitem categories d = Some c /\ In c categories.
Proof.
  intros Hd.
  assert (d = 0 \/ d = 1 \/ d = 2) as [ -> | [ -> | -> ] ] by lia;
    eexists; (split; [reflexivity | simpl; tauto]).
Qed.

Lemma emit_cases (m : span) (c : string) :
  In c categories ->
  ((c = "Q"%string \/ c = "A"%string) /\ emit m c = [(fst m, snd m, c)]) \/
  (c = "O"%string /\ emit m c = []).
Proof.
  simpl. intros [ <- | [ <- | [ <- | [] ] ] ]; [left | left | right]; (split; [tauto | reflexivity]).
Qed.

Lemma emit_shape (m : span) (c : string) : turn_shape m (emit m c).
Proof.
  unfold emit, turn_shape, is_emitted. simpl.
  destruct (String.eqb_spec c "Q"); [right; exists c; tauto|].
  destruct (String.eqb_spec c "A"); [right; exists c; tauto|].
  now left.
Qed.

(** A turn reads the generator once and yields by the category drawn; it
    raises when the index read is no index of the three categories. *)
Lemma loop_body_draw (m : span) (g : Rng) :
  loop_body m g =
  match drawn 0 g with
  | Some c => Some (emit m c, advance 1 g)
  | None => None
  end.
Proof.
  unfold loop_body, choice, bind, drawn, draw, emit, ret, raise.
  change (len categories) with 3. simpl.
  destruct (randbelow 3 g) as [d g']. simpl.
  destruct (getitem categories d) as [c|]; [|reflexivity].
  destruct (is_emitted c); destruct m; reflexivity.
Qed.

Lemma drawn_S (k : nat) (g : Rng) : drawn (S k) g = drawn k (advance 1 g).
Proof. reflexivity. Qed.

Lemma turns_concat (ms : list span) (g : Rng) :
  for_each_match ms g =
  match turns ms g with
  | Some (outs, g') => Some (concat outs, g')
  | None => None
  end.
Proof.
  revert g. induction ms as [|m ms IH]; intros g; [reflexivity|].
  simpl. unfold bind. destruct (loop_body m g) as [[ys g1]|]; [|reflexivity].
  rewrite IH. destruct (turns ms g1) as [[zs g2]|]; reflexivity.
Qed.

Lemma shapes_subsequence (ms : list span) (outs : list (list prediction)) :
  Forall2 turn_shape ms outs -> subsequence (map position (concat outs)) ms.
Proof.
  induction 1 as [|m ys ms outs Hshape _ IH]; simpl; [constructor|].
  destruct Hshape as [->|(c & _ & ->)]; simpl.
  - now constructor.
  - change (position (fst m, snd m, c)) with (fst m, snd m).
    rewrite <- surjective_pairing. now constructor.
Qed.

Lemma shapes_labels (ms : list span) (outs : list (list prediction)) :
  Forall2 turn_shape ms outs ->
  Forall (fun p => label p = "Q"%string \/ label p = "A"%string) (concat outs).
Proof.
  induction 1 as [|m ys ms outs Hshape _ IH]; simpl; [constructor|].
  destruct Hshape as [->|(c & Hc & ->)]; simpl; [assumption|].
  constructor; assumption.
Qed.

(** No match, no turn: the generator is not read. *)
Lemma finditer_from_no_word (s : str) (pos : Z) :
  Forall (fun c => SRE_UNI_IS_WORD c = false) s -> finditer_from s pos = [].
Proof.
  intros Hs. revert pos. induction Hs as [|c s Hc Hs IH]; intros pos.
  - now simp finditer_from.
  - simp finditer_from. rewrite Hc. simpl. apply IH.
Qed.

Lemma choice_draw (g : Rng) :
  choice categories g =
  match drawn 0 g with
  | Some c => Some (c, advance 1 g)
  | None => None
  end.
Proof.
  unfold choice, bind, drawn, draw, ret, raise.
  change (len categories) with 3. simpl.
  destruct (randbelow 3 g) as [d g']. simpl.
  destruct (getitem categories d) as [c|]; reflexivity.
Qed.

Lemma for_each_match_cons (m : span) (ms : list span) (g : Rng) :
  for_each_match (m :: ms) g =
  match drawn 0 g with
  | Some c =>
      match for_each_match ms (advance 1 g) with
      | Some (zs, g') => Some (emit m c ++ zs, g')
      | None => None
      end
  | None => None
  end.
Proof.
  simpl for_each_match. unfold bind. rewrite loop_body_draw.
  destruct (drawn 0 g) as [c|]; reflexivity.
Qed.

Section Uniform.

(** [_randbelow(n)] answers in [range(n)]. *)
Hypothesis randbelow_range : forall n g, 0 < n -> 0 <= fst (randbelow n g) < n.

Lemma drawn_category (k : nat) (g : Rng) :
  exists c, drawn k g = Some c /\ In c categories.
Proof. apply getitem_categories. apply randbelow_range. lia. Qed.

(** The loop takes one turn for each match: turn [i] reads the generator for
    the [i]-th time and yields by that draw alone. *)
Lemma turns_spec (ms : list span) (g : Rng) :
  exists outs,
    turns ms g = Some (outs, advance (length ms) g) /\
    Forall2 turn_shape ms outs /\
    (forall i m, nth_error ms i = Some m ->
       exists c, drawn i g = Some c /\ In c categories /\
                 nth_error outs i = Some (emit m c)).
Proof.
  revert g. induction ms as [|m ms IH]; intros g.
  - exists []. repeat split; [constructor|]. intros [|i] m'; discriminate.
  - destruct (IH (advance 1 g)) as (outs & Hrun & Hshape & Hnth).
    destruct (drawn_category 0 g) as (c & Hc & Hin).
    exists (emit m c :: outs). repeat split.
    + simpl turns. unfold bind. rewrite loop_body_draw, Hc, Hrun. reflexivity.
    + constructor; [apply emit_shape | assumption].
    + intros [|i] m' Hm'.
      * injection Hm' as <-. exists c. auto.
      * rewrite drawn_S. apply Hnth. exact Hm'.
Qed.

Lemma predict_spec (text : str) (g : Rng) :
  exists outs,
    predict text g = Some (concat outs, advance (length (finditer text)) g) /\
    turns (finditer text) g = Some (outs, advance (length (finditer text)) g) /\
    Forall2 turn_shape (finditer text) outs /\
    (forall i m, nth_error (finditer text) i = Some m ->
       exists c, drawn i g = Some c /\ In c categories /\
                 nth_error outs i = Some (emit m c)).
Proof.
  destruct (turns_spec (finditer text) g) as (outs & Hrun & Hshape & Hnth).
  exists outs. unfold predict. rewrite turns_concat, Hrun. auto.
Qed.

(** ** The classifier claims *)

(** What [predict] yields, read off the draws: the triple [(a, b, c)] is
    yielded exactly when [(a, b)] is a span of the scan and the draw made for
    it is [c], one of "Q" and "A". *)
Lemma yields_by_draw (ms : list span) (outs : list (list prediction)) (g : Rng) :
  length outs = length ms ->
  (forall i m, nth_error ms i = Some m ->
     exists c, drawn i g = Some c /\ In c categories /\
               nth_error outs i = Some (emit m c)) ->
  forall a b c,
    In (a, b, c) (concat outs) <->
    exists i, nth_error ms i = Some (a, b) /\ drawn i g = Some c /\
              (c = "Q"%string \/ c = "A"%string).
Proof.
  intros Hlen Hnth a b c. split.
  - intros Hin. apply in_concat in Hin. destruct Hin as (ys & Hys & Hp).
    apply In_nth_error in Hys. destruct Hys as (i & Hi).
    assert (Hlt : (i < length ms)%nat)
      by (rewrite <- Hlen; apply nth_error_Some; congruence).
    destruct (nth_error ms i) as [m|] eqn:Hm;
      [|apply nth_error_None in Hm; lia].
    destruct (Hnth i m Hm) as (c0 & Hc0 & Hcat & Hout).
    assert (ys = emit m c0) as -> by congruence.
    destruct (emit_cases m c0 Hcat) as [(Hqa & E)|(_ & E)];
      rewrite E in Hp; simpl in Hp; [|contradiction].
    destruct Hp as [Hp|[]]. injection Hp as <- <- <-.
    exists i. rewrite <- surjective_pairing. auto.
  - intros (i & Hm & Hc & Hqa).
    destruct (Hnth i (a, b) Hm) as (c0 & Hc0 & _ & Hout).
    assert (c0 = c) as -> by congruence.
    apply in_concat. exists (emit (a, b) c). split.
    + eapply nth_error_In; eassumption.
    + destruct Hqa as [-> | ->]; now left.
Qed.

(** C2. Decision rule and output shape: on every candidate span of every
    document a turn of the loop calls [choice] once, which returns one of the
    three categories "Q", "A", "O" and moves the generator by one draw; the
    turn yields the triple of the span and that category when the category is
    "Q" or "A", and yields nothing when it is "O".  [predict] makes one draw
    for each span and yields, in the order of the spans, what these turns
    yield: the triple [(a, b, c)] is yielded if and only if [(a, b)] is a span
    of the scan whose draw is [c] and [c] is "Q" or "A"; so every triple that
    [predict] yields carries "Q" or "A". *)
Theorem decision_rule (text : str) (g : Rng) :
  (forall m g0, In m (finditer text) ->
     exists c,
       In c categories /\
       choice categories g0 = Some (c, advance 1 g0) /\
       loop_body m g0 = Some (emit m c, advance 1 g0) /\
       (((c = "Q"%string \/ c = "A"%string) /\ emit m c = [(fst m, snd m, c)]) \/
        (c = "O"%string /\ emit m c = []))) /\
  (exists out,
     predict text g = Some (out, advance (length (finditer text)) g) /\
     Forall (fun p => label p = "Q"%string \/ label p = "A"%string) out /\
     (forall a b c,
        In (a, b, c) out <->
        exists i, nth_error (finditer text) i = Some (a, b) /\
                  drawn i g = Some c /\ (c = "Q"%string \/ c = "A"%string)) /\
     (exists outs,
        out = concat outs /\
        length outs = length (finditer text) /\
        forall i m, nth_error (finditer text) i = Some m ->
          exists c, drawn i g = Some c /\ In c categories /\
                    nth_error outs i = Some (emit m c) /\
                    (((c = "Q"%string \/ c = "A"%string) /\
                      emit m c = [(fst m, snd m, c)]) \/
                     (c = "O"%string /\ emit m c = [])))).
Proof.
  split.
  - intros m g0 _. destruct (drawn_category 0 g0) as (c & Hc & Hin).
    exists c. split; [assumption|].
    rewrite choice_draw, loop_body_draw, Hc.
    repeat split. now apply emit_cases.
  - destruct (predict_spec text g) as (outs & Hrun & _ & Hshape & Hnth).
    assert (Hlen : length outs = length (finditer text))
      by (symmetry; eapply Forall2_length; eassumption).
    exists (concat outs). split; [assumption|].
    split; [eapply shapes_labels; eassumption|].
    split; [now apply yields_by_draw|].
    exists outs. split; [reflexivity|]. split; [assumption|].
    intros i m Hm. destruct (Hnth i m Hm) as (c & Hc & Hcat & Hout).
    exists c. repeat split; try assumption. now apply emit_cases.
Qed.

(** C4. Classifier subsequence law: for every document and every state of
    the generator, the positions of the triples that [predict] yields, in the
    order they are yielded, form a subsequence of the list of spans of the
    tokenizer: no span is invented and none is out of order. *)
Theorem classifier_subsequence (text : str) (g : Rng) :
  exists out,
    predict text g = Some (out, advance (length (finditer text)) g) /\
    subsequence (map position out) (finditer text).
Proof.
  destruct (predict_spec text g) as (outs & Hrun & _ & Hshape & _).
  exists (concat outs). split; [assumption|].
  now apply shapes_subsequence.
Qed.

(** C5. Coverage bounds: for every document and every state of the
    generator, each triple [(start, end, category)] that [predict] yields has
    [0 <= start], [start < end] and [end <= len(text)]. *)
Theorem coverage_bounds (text : str) (g : Rng) :
  exists out,
    predict text g = Some (out, advance (length (finditer text)) g) /\
    Forall (fun p => 0 <= fst (position p) /\
                     fst (position p) < snd (position p) /\
                     snd (position p) <= len text) out.
Proof.
  destruct (predict_spec text g) as (outs & Hrun & _ & Hshape & _).
  exists (concat outs). split; [assumption|].
  apply Forall_forall. intros p Hp.
  pose proof (finditer_nonempty_spans text) as Hall. rewrite Forall_forall in Hall.
  apply (Hall (position p)).
  eapply subsequence_In; [apply shapes_subsequence; eassumption|].
  now apply in_map.
Qed.

(** C8. Determinism under fixed randomness: two runs of [predict] over the
    same document in which the generator returns the same category at each
    of the draws made (one for each token) yield the same triples in the same
    order. *)
Theorem determinism (text : str) (g1 g2 : Rng) :
  (forall i, (i < length (finditer text))%nat -> drawn i g1 = drawn i g2) ->
  exists out,
    predict text g1 = Some (out, advance (length (finditer text)) g1) /\
    predict text g2 = Some (out, advance (length (finditer text)) g2).
Proof.
  intros Hsame.
  destruct (predict_spec text g1) as (outs1 & Hrun1 & _ & Hshape1 & Hnth1).
  destruct (predict_spec text g2) as (outs2 & Hrun2 & _ & Hshape2 & Hnth2).
  assert (outs1 = outs2) as <-; [|eauto].
  apply nth_error_ext. intros i.
  destruct (nth_error (finditer text) i) as [m|] eqn:Hm.
  - destruct (Hnth1 i m Hm) as (c1 & Hc1 & _ & ->).
    destruct (Hnth2 i m Hm) as (c2 & Hc2 & _ & ->).
    assert (Hlt : (i < length (finditer text))%nat)
      by (apply nth_error_Some; congruence).
    rewrite (Hsame i Hlt) in Hc1. congruence.
  - apply nth_error_None in Hm.
    apply Forall2_length in Hshape1, Hshape2.
    transitivity (@None (list prediction)); [|symmetry];
      apply nth_error_None; lia.
Qed.

(** C9. Per-span independence: each token takes one turn of the loop and
    each turn reads the generator once, whether it yields or not, so turn [i]
    reads draw [i]; what turn [i] yields is [emit] of the [i]-th span and the
    category of draw [i], whatever the other draws are: two runs that agree
    on draw [i] yield the same at turn [i]. *)
Theorem per_span_independence (text : str) (g1 g2 : Rng) (i : nat) (m : span) :
  nth_error (finditer text) i = Some m ->
  drawn i g1 = drawn i g2 ->
  exists outs1 outs2 c,
    turns (finditer text) g1 = Some (outs1, advance (length (finditer text)) g1) /\
    predict text g1 = Some (concat outs1, advance (length (finditer text)) g1) /\
    turns (finditer text) g2 = Some (outs2, advance (length (finditer text)) g2) /\
    predict text g2 = Some (concat outs2, advance (length (finditer text)) g2) /\
    drawn i g1 = Some c /\
    nth_error outs1 i = Some (emit m c) /\
    nth_error outs2 i = Some (emit m c).
Proof.
  intros Hm Hsame.
  destruct (predict_spec text g1) as (outs1 & Hrun1 & Hturns1 & _ & Hnth1).
  destruct (predict_spec text g2) as (outs2 & Hrun2 & Hturns2 & _ & Hnth2).
  destruct (Hnth1 i m Hm) as (c1 & Hc1 & _ & Ho1).
  destruct (Hnth2 i m Hm) as (c2 & Hc2 & _ & Ho2).
  assert (c2 = c1) as -> by congruence.
  exists outs1, outs2, c1. auto 10.
Qed.

(** C10. Emitted-span disjointness: for every document and every state of
    the generator, the positions of the triples that [predict] yields are in
    strictly increasing order and pairwise disjoint: of two of them, the one
    yielded first starts first, ends at or before the start of the other, and
    shares no offset with it. *)
Theorem emitted_disjoint (text : str) (g : Rng) :
  exists out,
    predict text g = Some (out, advance (length (finditer text)) g) /\
    StronglySorted (fun x y : span => fst x < fst y /\ precedes x y /\ disjoint x y)
                   (map position out).
Proof.
  destruct (predict_spec text g) as (outs & Hrun & _ & Hshape & _).
  exists (concat outs). split; [assumption|].
  eapply subsequence_sorted; [|apply (finditer_separated text)].
  now apply shapes_subsequence.
Qed.
End Uniform.

(** C7. Empty input: on the empty document, and on every document with no
    word code point, [predict] returns without raising, yields nothing and
    leaves the generator as it found it, whatever its state. *)
Theorem empty_input :
  (forall g, predict [] g = Some ([], g)) /\
  (forall text g,
     Forall (fun c => SRE_UNI_IS_WORD c = false) text ->
     finditer text = [] /\ predict text g = Some ([], g)).
Proof.
  split; [reflexivity|].
  intros text g Hno. unfold predict, finditer.
  rewrite finditer_from_no_word by assumption. split; reflexivity.
Qed.

(** C3 (amended). Concrete scenario: the document "Is sky blue? Yes." has
    the four spans (0,2), (3,6), (7,11), (13,16) of "Is", "sky", "blue",
    "Yes"; when the draws for the four tokens are "Q", "O", "A", "O" in this
    order, [predict] yields exactly (0,2,"Q") and (7,11,"A"): the third token
    is "blue", at (7,11). *)
Theorem concrete_scenario (g : Rng) :
  drawn 0 g = Some "Q"%string -> drawn 1 g = Some "O"%string ->
  drawn 2 g = Some "A"%string -> drawn 3 g = Some "O"%string ->
  finditer (codepoints "Is sky blue? Yes.") = [(0, 2); (3, 6); (7, 11); (13, 16)] /\
  predict (codepoints "Is sky blue? Yes.") g =
    Some ([(0, 2, "Q"%string); (7, 11, "A"%string)], advance 4 g).
Proof.
  intros H0 H1 H2 H3.
  assert (Htok : finditer (codepoints "Is sky blue? Yes.")
                 = [(0, 2); (3, 6); (7, 11); (13, 16)]) by reflexivity.
  split; [exact Htok|].
  unfold predict. rewrite Htok.
  rewrite for_each_match_cons, H0.
  rewrite for_each_match_cons. change (drawn 0 (advance 1 g)) with (drawn 1 g). rewrite H1.
  rewrite for_each_match_cons. change (drawn 0 (advance 1 (advance 1 g))) with (drawn 2 g).
  rewrite H2.
  rewrite for_each_match_cons.
  change (drawn 0 (advance 1 (advance 1 (advance 1 g)))) with (drawn 3 g). rewrite H3.
  reflexivity.
Qed.
(** ** Further properties of the scan *)

Lemma finditer_from_covers (s : str) (pos i : Z) :
  word_at s (i - pos) = true ->
  exists m, In m (finditer_from s pos) /\ covers m i.
Proof.
  revert i. funelim (finditer_from s pos); intros i Hw.
  - apply word_at_inside in Hw. rewrite len_nil in Hw. lia.
  - set (n := word_repeat s') in *.
    pose proof (word_at_inside _ _ Hw) as Hin.
    destruct (Z.lt_ge_cases (i - pos) (1 + Z.of_nat n)) as [Hlt|Hge].
    + exists (pos, pos + 1 + Z.of_nat n). split; [now left|].
      unfold covers. simpl. lia.
    + assert (Hsplit : c :: s' = (c :: firstn n s') ++ skipn n s')
        by (simpl; now rewrite firstn_skipn).
      assert (Hlen : len (c :: firstn n s') = 1 + Z.of_nat n)
        by (rewrite len_cons; unfold n; now rewrite len_firstn_word_repeat).
      rewrite Hsplit, word_at_app_r in Hw by lia. rewrite Hlen in Hw.
      destruct (H i) as (m & Hm & Hcov).
      { rewrite <- Hw. f_equal. lia. }
      exists m. split; [now right | assumption].
  - destruct (Z.eq_dec (i - pos) 0) as [E|E].
    + rewrite E, word_at_head in Hw. congruence.
    + pose proof (word_at_inside _ _ Hw) as Hin.
      rewrite word_at_cons in Hw by lia.
      apply H. rewrite <- Hw. f_equal. lia.
Qed.

Lemma sorted_trichotomy (A : Type) (R : A -> A -> Prop) (l : list A) (x y : A) :
  StronglySorted R l -> In x l -> In y l -> x = y \/ R x y \/ R y x.
Proof.
  intros Hs. induction Hs as [|z l Hs IH Hall]; simpl; [contradiction|].
  rewrite Forall_forall in Hall.
  intros [<-|Hx] [<-|Hy]; auto.
Qed.

(** Two matches are half a code point apart at least: the count of matches
    is bounded by half the length, rounded up. *)
Lemma finditer_from_count (s : str) (pos : Z) :
  (2 * length (finditer_from s pos) <= length s + 1)%nat /\
  (word_at s 0 = false -> (2 * length (finditer_from s pos) <= length s)%nat).
Proof.
  funelim (finditer_from s pos).
  - simpl. split; intros; lia.
  - destruct H as [_ H]. specialize (H (word_repeat_skipn s')).
    pose proof (length_skipn (word_repeat s') s').
    split.
    + simpl length. lia.
    + rewrite word_at_head. congruence.
  - destruct H as [H _]. simpl length. split; intros; lia.
Qed.

Lemma finditer_from_word (c : codepoint) (s : str) (pos : Z) :
  SRE_UNI_IS_WORD c = true ->
  finditer_from (c :: s) pos
  = (pos, pos + 1 + Z.of_nat (word_repeat s))
      :: finditer_from (skipn (word_repeat s) s) (pos + 1 + Z.of_nat (word_repeat s)).
Proof. intros Hc. simp finditer_from. rewrite Hc. reflexivity. Qed.

Lemma word_repeat_all (s : str) :
  Forall (fun c => SRE_UNI_IS_WORD c = true) s -> word_repeat s = length s.
Proof.
  induction 1 as [|c s Hc _ IH]; simpl; [reflexivity|]. now rewrite Hc, IH.
Qed.

Lemma word_repeat_app_stop (s1 s2 : str) (c : codepoint) :
  SRE_UNI_IS_WORD c = false -> word_repeat (s1 ++ c :: s2) = word_repeat s1.
Proof.
  intros Hc. induction s1 as [|d s1 IH]; simpl.
  - now rewrite Hc.
  - destruct (SRE_UNI_IS_WORD d); [now rewrite IH | reflexivity].
Qed.

(** The scan does not look back: started at another offset it finds the
    same matches, moved. *)
Lemma finditer_from_shift (s : str) (pos d : Z) :
  finditer_from s (pos + d) = map (shift_span d) (finditer_from s pos).
Proof.
  funelim (finditer_from s pos); simp finditer_from.
  - reflexivity.
  - rewrite Heq. simpl. unfold shift_span at 1. simpl. f_equal.
    + f_equal. lia.
    + rewrite <- H. f_equal. lia.
  - rewrite Heq. simpl. rewrite <- H. f_equal. lia.
Qed.

(** A code point outside [\w] cuts the scan in two. *)
Lemma finditer_from_separator (s1 s2 : str) (c : codepoint) (pos : Z) :
  SRE_UNI_IS_WORD c = false ->
  finditer_from (s1 ++ c :: s2) pos
  = finditer_from s1 pos ++ finditer_from s2 (pos + len s1 + 1).
Proof.
  intros Hc. funelim (finditer_from s1 pos).
  - simpl app. simp finditer_from. rewrite Hc. simpl.
    rewrite len_nil. f_equal. lia.
  - simpl app. simp finditer_from. rewrite Heq. simpl.
    rewrite word_repeat_app_stop by assumption.
    set (n := word_repeat s') in *.
    pose proof (word_repeat_le s') as Hn. fold n in Hn.
    rewrite skipn_app. replace (n - length s')%nat with 0%nat by lia.
    simpl skipn. rewrite (H _ s2 c0 _ Hc eq_refl eq_refl). simpl app.
    f_equal. f_equal. f_equal.
    rewrite len_cons. unfold len. rewrite length_skipn. lia.
  - simpl app. simp finditer_from. rewrite Heq. simpl.
    rewrite (H _ s2 c0 _ Hc eq_refl eq_refl). f_equal. f_equal. rewrite len_cons. lia.
Qed.

Lemma finditer_separator (s1 s2 : str) (c : codepoint) :
  SRE_UNI_IS_WORD c = false ->
  finditer (s1 ++ c :: s2)
  = finditer s1 ++ map (shift_span (len s1 + 1)) (finditer s2).
Proof.
  intros Hc. unfold finditer. rewrite finditer_from_separator by assumption.
  f_equal. rewrite <- finditer_from_shift. reflexivity.
Qed.

(** ** Further properties of the loop *)

Lemma emit_shift (d : Z) (m : span) (c : string) :
  emit (shift_span d m) c = map (shift_prediction d) (emit m c).
Proof. unfold emit. destruct (is_emitted c); reflexivity. Qed.

Lemma for_each_match_shift (d : Z) (ms : list span) (g : Rng) :
  for_each_match (map (shift_span d) ms) g =
  match for_each_match ms g with
  | Some (out, g') => Some (map (shift_prediction d) out, g')
  | None => None
  end.
Proof.
  revert g. induction ms as [|m ms IH]; intros g; [reflexivity|].
  simpl map. rewrite !for_each_match_cons.
  destruct (drawn 0 g) as [c|]; [|reflexivity].
  rewrite IH. destruct (for_each_match ms (advance 1 g)) as [[zs g']|]; [|reflexivity].
  now rewrite emit_shift, map_app.
Qed.

Lemma for_each_match_app (ms1 ms2 : list span) (g : Rng) :
  for_each_match (ms1 ++ ms2) g =
  match for_each_match ms1 g with
  | Some (out1, g1) =>
      match for_each_match ms2 g1 with
      | Some (out2, g2) => Some (out1 ++ out2, g2)
      | None => None
      end
  | None => None
  end.
Proof.
  revert g. induction ms1 as [|m ms1 IH]; intros g.
  - simpl. unfold ret. destruct (for_each_match ms2 g) as [[out2 g2]|]; reflexivity.
  - simpl app. rewrite !for_each_match_cons.
    destruct (drawn 0 g) as [c|]; [|reflexivity].
    rewrite IH. destruct (for_each_match ms1 (advance 1 g)) as [[out1 g1]|]; [|reflexivity].
    destruct (for_each_match ms2 g1) as [[out2 g2]|]; [|reflexivity].
    now rewrite app_assoc.
Qed.

Lemma advance_add (j k : nat) (g : Rng) : advance (j + k) g = advance k (advance j g).
Proof. revert g. induction j as [|j IH]; intros g; [reflexivity|]. simpl. apply IH. Qed.

Lemma for_each_match_all_other (ms : list span) (g : Rng) :
  (forall i, (i < length ms)%nat -> drawn i g = Some "O"%string) ->
  for_each_match ms g = Some ([], advance (length ms) g).
Proof.
  revert g. induction ms as [|m ms IH]; intros g Hall; [reflexivity|].
  rewrite for_each_match_cons, (Hall 0%nat) by (simpl; lia).
  rewrite IH; [reflexivity|].
  intros i Hi. change (drawn i (advance 1 g)) with (drawn (S i) g).
  apply Hall. simpl. lia.
Qed.

Lemma for_each_match_all_kept (ms : list span) (g : Rng) :
  (forall i, (i < length ms)%nat ->
             drawn i g = Some "Q"%string \/ drawn i g = Some "A"%string) ->
  exists out,
    for_each_match ms g = Some (out, advance (length ms) g) /\
    map position out = ms.
Proof.
  revert g. induction ms as [|m ms IH]; intros g Hall.
  - exists []. split; reflexivity.
  - destruct (IH (advance 1 g)) as (out & Hrun & Hpos).
    { intros i Hi. change (drawn i (advance 1 g)) with (drawn (S i) g).
      apply Hall. simpl. lia. }
    rewrite for_each_match_cons, Hrun.
    destruct (Hall 0%nat ltac:(simpl; lia)) as [-> | ->];
      eexists; (split; [reflexivity|]); simpl; rewrite Hpos;
      now rewrite <- surjective_pairing.
Qed.


(** ** The generator, one [next] at a time *)

Lemma gen_next_cons (m : span) (ms : list span) (g : Rng) :
  gen_next (m :: ms) g =
  match drawn 0 g with
  | Some c =>
      if is_emitted c then Some (Some ((fst m, snd m, c), ms), advance 1 g)
      else gen_next ms (advance 1 g)
  | None => None
  end.
Proof.
  simpl gen_next. unfold bind. rewrite loop_body_draw.
  destruct (drawn 0 g) as [c|]; [|reflexivity].
  unfold emit. destruct (is_emitted c); reflexivity.
Qed.

Lemma for_each_match_next (ms : list span) (g : Rng) :
  for_each_match ms g =
  match gen_next ms g with
  | Some (Some (y, ms'), g') =>
      match for_each_match ms' g' with
      | Some (ys, g'') => Some (y :: ys, g'')
      | None => None
      end
  | Some (None, g') => Some ([], g')
  | None => None
  end.
Proof.
  revert g. induction ms as [|m ms IH]; intros g; [reflexivity|].
  rewrite for_each_match_cons, gen_next_cons.
  destruct (drawn 0 g) as [c|]; [|reflexivity].
  unfold emit. destruct (is_emitted c).
  - destruct (for_each_match ms (advance 1 g)) as [[zs g']|]; reflexivity.
  - rewrite IH.
    destruct (gen_next ms (advance 1 g)) as [[[[y ms']|] g']|]; try reflexivity.
    destruct (for_each_match ms' g') as [[ys g'']|]; reflexivity.
Qed.

Lemma gen_next_shorter (ms ms' : list span) (y : prediction) (g g' : Rng) :
  gen_next ms g = Some (Some (y, ms'), g') -> (length ms' < length ms)%nat.
Proof.
  revert g. induction ms as [|m ms IH]; intros g; [discriminate|].
  rewrite gen_next_cons. destruct (drawn 0 g) as [c|]; [|discriminate].
  destruct (is_emitted c).
  - intros E. injection E as _ <- _. simpl. lia.
  - intros E. apply IH in E. simpl. lia.
Qed.

Lemma gen_list_enough (fuel : nat) (ms : list span) (g : Rng) :
  (length ms < fuel)%nat -> gen_list fuel ms g = for_each_match ms g.
Proof.
  revert ms g. induction fuel as [|fuel IH]; intros ms g Hlt; [lia|].
  simpl gen_list. unfold bind. rewrite for_each_match_next.
  destruct (gen_next ms g) as [[[[y ms']|] g']|] eqn:E; try reflexivity.
  apply gen_next_shorter in E. rewrite IH by lia.
  destruct (for_each_match ms' g') as [[ys g'']|]; reflexivity.
Qed.

Lemma gen_next_first (ms : list span) (g : Rng) (i : nat) (m : span) (c : string) :
  nth_error ms i = Some m ->
  (forall j, (j < i)%nat -> drawn j g = Some "O"%string) ->
  drawn i g = Some c -> is_emitted c = true ->
  gen_next ms g = Some (Some ((fst m, snd m, c), skipn (S i) ms), advance (S i) g).
Proof.
  revert g i. induction ms as [|m0 ms IH]; intros g i Hm Hskip Hc Hemit.
  - destruct i; discriminate.
  - rewrite gen_next_cons. destruct i as [|i].
    + injection Hm as ->. rewrite Hc, Hemit. reflexivity.
    + rewrite (Hskip 0%nat) by lia. simpl is_emitted. cbv iota.
      change (drawn (S i) g) with (drawn i (advance 1 g)) in Hc.
      change (advance (S (S i)) g) with (advance (S i) (advance 1 g)).
      apply IH; [exact Hm | | exact Hc | exact Hemit].
      intros j Hj. change (drawn j (advance 1 g)) with (drawn (S j) g).
      apply Hskip. lia.
Qed.

(** ** Further results on the tokenizer and the classifier *)

(** X1. Every word code point of the document lies in a span of the scan
    and in one only: the offset [i] holds a code point of [\w] exactly when
    some span covers [i], and two spans that cover the same offset are the
    same span. *)
Theorem token_coverage (text : str) (i : Z) :
  (word_at text i = true <-> exists m, In m (finditer text) /\ covers m i) /\
  (forall m1 m2, In m1 (finditer text) -> In m2 (finditer text) ->
                 covers m1 i -> covers m2 i -> m1 = m2).
Proof.
  split; [split|].
  - intros Hw. apply finditer_from_covers. now rewrite Z.sub_0_r.
  - intros ([a b] & Hin & Hcov). unfold covers in Hcov. simpl in Hcov.
    unfold finditer in Hin. apply finditer_from_runs in Hin.
    rewrite !Z.sub_0_r in Hin. destruct Hin as (_ & _ & _ & Hall & _).
    now apply Hall.
  - intros m1 m2 H1 H2 Hc1 Hc2. unfold covers in *.
    destruct (sorted_trichotomy _ _ _ m1 m2 (finditer_separated text) H1 H2)
      as [E|[(_ & _ & Hd)|(_ & _ & Hd)]]; [assumption | |];
      exfalso; apply (Hd i); tauto.
Qed.

(** X2. Two spans of the scan never touch: of two spans, the later one
    starts after the end of the earlier one, so at least one code point lies
    between them. *)
Theorem tokens_apart (text : str) :
  StronglySorted (fun x y : span => snd x < fst y) (finditer text).
Proof. apply finditer_from_gaps. Qed.

(** X3. The scan of a document of [n] code points produces at most
    [(n + 1) / 2] spans. *)
Theorem token_count (text : str) :
  (2 * length (finditer text) <= length text + 1)%nat.
Proof. apply finditer_from_count. Qed.

(** X4. A document that is not empty and holds word code points only is
    one token: the scan produces the single span [(0, len(text))]. *)
Theorem single_token (text : str) :
  text <> [] -> Forall (fun c => SRE_UNI_IS_WORD c = true) text ->
  finditer text = [(0, len text)].
Proof.
  intros Hne Hall. destruct Hall as [|c s Hc Hs]; [congruence|].
  unfold finditer. rewrite finditer_from_word by assumption.
  rewrite (word_repeat_all s Hs), skipn_all. simp finditer_from.
  rewrite len_cons. unfold len. do 2 f_equal.
Qed.

(** X5. A code point outside [\w] separates: the spans of [s1 + c + s2],
    for [c] not a word code point, are the spans of [s1] followed by the
    spans of [s2] moved by [len(s1) + 1]. *)
Theorem tokenizer_separator (s1 s2 : str) (c : codepoint) :
  SRE_UNI_IS_WORD c = false ->
  finditer (s1 ++ c :: s2)
  = finditer s1 ++ map (shift_span (len s1 + 1)) (finditer s2).
Proof. apply finditer_separator. Qed.

(** X6. [predict] on [s1 + c + s2], for [c] not a word code point, is
    [predict] on [s1] and then, from the generator as that run leaves it,
    [predict] on [s2] with its offsets moved by [len(s1) + 1]; it raises
    when either run does. *)
Theorem predict_separator (s1 s2 : str) (c : codepoint) (g : Rng) :
  SRE_UNI_IS_WORD c = false ->
  predict (s1 ++ c :: s2) g =
  match predict s1 g with
  | Some (out1, g1) =>
      match predict s2 g1 with
      | Some (out2, g2) =>
          Some (out1 ++ map (shift_prediction (len s1 + 1)) out2, g2)
      | None => None
      end
  | None => None
  end.
Proof.
  intros Hc. unfold predict.
  rewrite finditer_separator, for_each_match_app by assumption.
  destruct (for_each_match (finditer s1) g) as [[out1 g1]|]; [|reflexivity].
  rewrite for_each_match_shift.
  destruct (for_each_match (finditer s2) g1) as [[out2 g2]|]; reflexivity.
Qed.

(** X7. When every draw made is "O", [predict] yields nothing, and still
    has read the generator once for each token. *)
Theorem all_other (text : str) (g : Rng) :
  (forall i, (i < length (finditer text))%nat -> drawn i g = Some "O"%string) ->
  predict text g = Some ([], advance (length (finditer text)) g).
Proof. apply for_each_match_all_other. Qed.

(** X8. When every draw made is "Q" or "A", [predict] drops no token: the
    positions of the triples it yields are the spans of the scan, all of them
    and in order. *)
Theorem all_kept (text : str) (g : Rng) :
  (forall i, (i < length (finditer text))%nat ->
             drawn i g = Some "Q"%string \/ drawn i g = Some "A"%string) ->
  exists out,
    predict text g = Some (out, advance (length (finditer text)) g) /\
    map position out = finditer text.
Proof. apply for_each_match_all_kept. Qed.

(** X10. Draining the generator: calling [next] until [StopIteration]
    collects the triples in the order the loop yields them and leaves the
    random generator in the same state as the loop run in one go; as many
    calls as there are tokens, and one more, are always enough. *)
Theorem generator_drained (text : str) (g : Rng) (fuel : nat) :
  (length (finditer text) < fuel)%nat ->
  gen_list fuel (finditer text) g = predict text g.
Proof. apply gen_list_enough. Qed.

(** X11. Laziness: when the draws for the first [i] tokens are "O" and the
    draw for the next token is "Q" or "A", the first [next] returns that
    token with that label after [i + 1] reads of the random generator, and
    the tokens after it are still to be classified. *)
Theorem first_yield (text : str) (g : Rng) (i : nat) (m : span) (c : string) :
  nth_error (finditer text) i = Some m ->
  (forall j, (j < i)%nat -> drawn j g = Some "O"%string) ->
  drawn i g = Some c -> (c = "Q"%string \/ c = "A"%string) ->
  gen_next (finditer text) g
  = Some (Some ((fst m, snd m, c), skipn (S i) (finditer text)), advance (S i) g).
Proof.
  intros Hm Hskip Hc Hqa. apply gen_next_first; try assumption.
  destruct Hqa as [-> | ->]; reflexivity.
Qed.

Section UniformCount.

Hypothesis randbelow_range : forall n g, 0 < n -> 0 <= fst (randbelow n g) < n.


End UniformCount.

End Evaluator.

(** ** The claims on a run: ASCII classification, generator on a tape *)

Lemma tape_randbelow_range (n : Z) (g : tape) :
  0 < n -> 0 <= fst (tape_randbelow n g) < n.
Proof.
  intros Hn. destruct g as [|x g]; simpl; [lia|]. now apply Z.mod_pos_bound.
Qed.

Example finditer_sky :
  finditer ascii_only sky_document = [(0, 2); (3, 6); (7, 11); (13, 16)].
Proof. reflexivity. Qed.

Example finditer_identifiers :
  finditer ascii_only (codepoints "a_1  __x9-Z") = [(0, 3); (5, 9); (10, 11)].
Proof. reflexivity. Qed.

Example predict_sky :
  predict ascii_only tape tape_randbelow sky_document qoao
  = Some ([(0, 2, "Q"%string); (7, 11, "A"%string)], []).
Proof. reflexivity. Qed.

Lemma decision_rule_witness :
  (forall n g, 0 < n -> 0 <= fst (tape_randbelow n g) < n) /\
  (exists out,
     predict ascii_only tape tape_randbelow sky_document qoao
     = Some (out, advance tape tape_randbelow
                    (length (finditer ascii_only sky_document)) qoao) /\
     Forall (fun p => label p = "Q"%string \/ label p = "A"%string) out /\
     (forall a b c,
        In (a, b, c) out <->
        exists i, nth_error (finditer ascii_only sky_document) i = Some (a, b) /\
                  drawn tape tape_randbelow i qoao = Some c /\
                  (c = "Q"%string \/ c = "A"%string)) /\
     (exists outs,
        out = concat outs /\
        length outs = length (finditer ascii_only sky_document) /\
        forall i m, nth_error (finditer ascii_only sky_document) i = Some m ->
          exists c, drawn tape tape_randbelow i qoao = Some c /\ In c categories /\
                    nth_error outs i = Some (emit m c) /\
                    (((c = "Q"%string \/ c = "A"%string) /\
                      emit m c = [(fst m, snd m, c)]) \/
                     (c = "O"%string /\ emit m c = [])))).
Proof.
  split; [exact tape_randbelow_range|].
  exact (proj2 (decision_rule ascii_only tape tape_randbelow tape_randbelow_range
                              sky_document qoao)).
Defined.

Lemma concrete_scenario_witness :
  finditer ascii_only sky_document = [(0, 2); (3, 6); (7, 11); (13, 16)] /\
  predict ascii_only tape tape_randbelow sky_document qoao
  = Some ([(0, 2, "Q"%string); (7, 11, "A"%string)], advance tape tape_randbelow 4 qoao).
Proof.
  apply (concrete_scenario ascii_only tape tape_randbelow qoao); reflexivity.
Defined.

(** C3 as stated fails: with the draws "Q", "O", "A", "O" for the four
    tokens, what [predict] yields is not [(0,2,"Q"), (13,16,"A")]. *)
Lemma concrete_scenario_as_stated_fails :
  drawn tape tape_randbelow 0 qoao = Some "Q"%string /\
  drawn tape tape_randbelow 1 qoao = Some "O"%string /\
  drawn tape tape_randbelow 2 qoao = Some "A"%string /\
  drawn tape tape_randbelow 3 qoao = Some "O"%string /\
  option_map fst (predict ascii_only tape tape_randbelow sky_document qoao)
  <> Some [(0, 2, "Q"%string); (13, 16, "A"%string)].
Proof.
  repeat split. vm_compute. discriminate.
Qed.

Lemma classifier_subsequence_witness :
  (forall n g, 0 < n -> 0 <= fst (tape_randbelow n g) < n) /\
  (exists out,
     predict ascii_only tape tape_randbelow sky_document qoao
     = Some (out, advance tape tape_randbelow
                    (length (finditer ascii_only sky_document)) qoao) /\
     subsequence (map position out) (finditer ascii_only sky_document)).
Proof.
  split; [exact tape_randbelow_range|].
  exact (classifier_subsequence ascii_only tape tape_randbelow tape_randbelow_range
                                sky_document qoao).
Defined.

Lemma coverage_bounds_witness :
  (forall n g, 0 < n -> 0 <= fst (tape_randbelow n g) < n) /\
  (exists out,
     predict ascii_only tape tape_randbelow sky_document qoao
     = Some (out, advance tape tape_randbelow
                    (length (finditer ascii_only sky_document)) qoao) /\
     Forall (fun p => 0 <= fst (position p) /\
                      fst (position p) < snd (position p) /\
                      snd (position p) <= len sky_document) out).
Proof.
  split; [exact tape_randbelow_range|].
  exact (coverage_bounds ascii_only tape tape_randbelow tape_randbelow_range
                         sky_document qoao).
Defined.

Lemma empty_input_witness :
  Forall (fun c => SRE_UNI_IS_WORD ascii_only c = false) punctuation /\
  finditer ascii_only punctuation = [] /\
  predict ascii_only tape tape_randbelow punctuation qoao = Some ([], qoao).
Proof.
  assert (Hno : Forall (fun c => SRE_UNI_IS_WORD ascii_only c = false) punctuation)
    by (repeat constructor).
  split; [exact Hno|].
  exact (proj2 (empty_input ascii_only tape tape_randbelow) punctuation qoao Hno).
Defined.

(** Two tapes that differ after the four draws made on the document. *)
Lemma determinism_witness :
  (forall n g, 0 < n -> 0 <= fst (tape_randbelow n g) < n) /\
  (forall i, (i < length (finditer ascii_only sky_document))%nat ->
             drawn tape tape_randbelow i qoao
             = drawn tape tape_randbelow i [3; 5; 4; 8; 1]) /\
  (exists out,
     predict ascii_only tape tape_randbelow sky_document qoao
     = Some (out, advance tape tape_randbelow
                    (length (finditer ascii_only sky_document)) qoao) /\
     predict ascii_only tape tape_randbelow sky_document [3; 5; 4; 8; 1]
     = Some (out, advance tape tape_randbelow
                    (length (finditer ascii_only sky_document)) [3; 5; 4; 8; 1])).
Proof.
  assert (Hsame : forall i, (i < length (finditer ascii_only sky_document))%nat ->
                            drawn tape tape_randbelow i qoao
                            = drawn tape tape_randbelow i [3; 5; 4; 8; 1]).
  { intros i Hi. change (i < 4)%nat in Hi.
    destruct i as [|[|[|[|i]]]]; [reflexivity .. | lia]. }
  split; [exact tape_randbelow_range|]. split; [exact Hsame|].
  exact (determinism ascii_only tape tape_randbelow tape_randbelow_range
                     sky_document qoao [3; 5; 4; 8; 1] Hsame).
Defined.

(** Two tapes that agree on the third draw only: the third token, "blue",
    is yielded as an answer in both runs. *)
Lemma per_span_independence_witness :
  (forall n g, 0 < n -> 0 <= fst (tape_randbelow n g) < n) /\
  nth_error (finditer ascii_only sky_document) 2 = Some (7, 11) /\
  drawn tape tape_randbelow 2 qoao = drawn tape tape_randbelow 2 [1; 0; 1; 0] /\
  (exists outs1 outs2 c,
     turns tape tape_randbelow (finditer ascii_only sky_document) qoao
     = Some (outs1, advance tape tape_randbelow
                      (length (finditer ascii_only sky_document)) qoao) /\
     predict ascii_only tape tape_randbelow sky_document qoao
     = Some (concat outs1, advance tape tape_randbelow
                             (length (finditer ascii_only sky_document)) qoao) /\
     turns tape tape_randbelow (finditer ascii_only sky_document) [1; 0; 1; 0]
     = Some (outs2, advance tape tape_randbelow
                      (length (finditer ascii_only sky_document)) [1; 0; 1; 0]) /\
     predict ascii_only tape tape_randbelow sky_document [1; 0; 1; 0]
     = Some (concat outs2, advance tape tape_randbelow
                             (length (finditer ascii_only sky_document)) [1; 0; 1; 0]) /\
     drawn tape tape_randbelow 2 qoao = Some c /\
     nth_error outs1 2 = Some (emit (7, 11) c) /\
     nth_error outs2 2 = Some (emit (7, 11) c)).
Proof.
  split; [exact tape_randbelow_range|].
  split; [reflexivity|]. split; [reflexivity|].
  apply (per_span_independence ascii_only tape tape_randbelow tape_randbelow_range
                               sky_document qoao [1; 0; 1; 0] 2 (7, 11));
    reflexivity.
Defined.

Lemma emitted_disjoint_witness :
  (forall n g, 0 < n -> 0 <= fst (tape_randbelow n g) < n) /\
  (exists out,
     predict ascii_only tape tape_randbelow sky_document qoao
     = Some (out, advance tape tape_randbelow
                    (length (finditer ascii_only sky_document)) qoao) /\
     StronglySorted (fun x y : span => fst x < fst y /\ precedes x y /\ disjoint x y)
                    (map position out)).
Proof.
  split; [exact tape_randbelow_range|].
  exact (emitted_disjoint ascii_only tape tape_randbelow tape_randbelow_range
                          sky_document qoao).
Defined.

(** ** The further results on a run *)

Example token_count_tight :
  length (finditer ascii_only (codepoints "a b c")) = 3%nat.
Proof. reflexivity. Qed.

Lemma single_token_witness :
  codepoints "blue_42" <> [] /\
  Forall (fun c => SRE_UNI_IS_WORD ascii_only c = true) (codepoints "blue_42") /\
  finditer ascii_only (codepoints "blue_42") = [(0, len (codepoints "blue_42"))].
Proof.
  assert (Hne : codepoints "blue_42" <> []) by discriminate.
  assert (Hall : Forall (fun c => SRE_UNI_IS_WORD ascii_only c = true)
                        (codepoints "blue_42")) by (repeat constructor).
  split; [exact Hne|]. split; [exact Hall|].
  exact (single_token ascii_only (codepoints "blue_42") Hne Hall).
Defined.

Lemma tokenizer_separator_witness :
  SRE_UNI_IS_WORD ascii_only 63 = false /\
  finditer ascii_only (codepoints "Is sky blue" ++ 63 :: codepoints " Yes.")
  = finditer ascii_only (codepoints "Is sky blue")
    ++ map (shift_span (len (codepoints "Is sky blue") + 1))
           (finditer ascii_only (codepoints " Yes.")).
Proof.
  split; [reflexivity|].
  apply (tokenizer_separator ascii_only (codepoints "Is sky blue")
                             (codepoints " Yes.") 63).
  reflexivity.
Defined.

Lemma predict_separator_witness :
  SRE_UNI_IS_WORD ascii_only 63 = false /\
  predict ascii_only tape tape_randbelow
          (codepoints "Is sky blue" ++ 63 :: codepoints " Yes.") qoao
  = match predict ascii_only tape tape_randbelow (codepoints "Is sky blue") qoao with
    | Some (out1, g1) =>
        match predict ascii_only tape tape_randbelow (codepoints " Yes.") g1 with
        | Some (out2, g2) =>
            Some (out1 ++ map (shift_prediction (len (codepoints "Is sky blue") + 1)) out2,
                  g2)
        | None => None
        end
    | None => None
    end.
Proof.
  split; [reflexivity|].
  apply (predict_separator ascii_only tape tape_randbelow (codepoints "Is sky blue")
                           (codepoints " Yes.") 63 qoao).
  reflexivity.
Defined.

Lemma all_other_witness :
  (forall i, (i < length (finditer ascii_only sky_document))%nat ->
             drawn tape tape_randbelow i [2; 5; 8; 2] = Some "O"%string) /\
  predict ascii_only tape tape_randbelow sky_document [2; 5; 8; 2]
  = Some ([], advance tape tape_randbelow
                (length (finditer ascii_only sky_document)) [2; 5; 8; 2]).
Proof.
  assert (Hall : forall i, (i < length (finditer ascii_only sky_document))%nat ->
                           drawn tape tape_randbelow i [2; 5; 8; 2] = Some "O"%string).
  { intros i Hi. change (i < 4)%nat in Hi.
    destruct i as [|[|[|[|i]]]]; [reflexivity .. | lia]. }
  split; [exact Hall|].
  exact (all_other ascii_only tape tape_randbelow sky_document [2; 5; 8; 2] Hall).
Defined.

Lemma all_kept_witness :
  (forall i, (i < length (finditer ascii_only sky_document))%nat ->
             drawn tape tape_randbelow i [0; 1; 1; 0] = Some "Q"%string \/
             drawn tape tape_randbelow i [0; 1; 1; 0] = Some "A"%string) /\
  (exists out,
     predict ascii_only tape tape_randbelow sky_document [0; 1; 1; 0]
     = Some (out, advance tape tape_randbelow
                    (length (finditer ascii_only sky_document)) [0; 1; 1; 0]) /\
     map position out = finditer ascii_only sky_document).
Proof.
  assert (Hall : forall i, (i < length (finditer ascii_only sky_document))%nat ->
                           drawn tape tape_randbelow i [0; 1; 1; 0] = Some "Q"%string \/
                           drawn tape tape_randbelow i [0; 1; 1; 0] = Some "A"%string).
  { intros i Hi. change (i < 4)%nat in Hi.
    destruct i as [|[|[|[|i]]]]; [now left | now right | now right | now left | lia]. }
  split; [exact Hall|].
  exact (all_kept ascii_only tape tape_randbelow sky_document [0; 1; 1; 0] Hall).
Defined.


Lemma generator_drained_witness :
  (length (finditer ascii_only sky_document) < 5)%nat /\
  gen_list tape tape_randbelow 5 (finditer ascii_only sky_document) qoao
  = predict ascii_only tape tape_randbelow sky_document qoao.
Proof.
  assert (Hfuel : (length (finditer ascii_only sky_document) < 5)%nat)
    by (vm_compute; lia).
  split; [exact Hfuel|].
  exact (generator_drained ascii_only tape tape_randbelow sky_document qoao 5 Hfuel).
Defined.

(** The first two tokens are drawn "O", the third "A": the first [next]
    returns "blue" and has read three values of the tape. *)
Lemma first_yield_witness :
  nth_error (finditer ascii_only sky_document) 2 = Some (7, 11) /\
  (forall j, (j < 2)%nat -> drawn tape tape_randbelow j [2; 2; 1; 0] = Some "O"%string) /\
  drawn tape tape_randbelow 2 [2; 2; 1; 0] = Some "A"%string /\
  gen_next tape tape_randbelow (finditer ascii_only sky_document) [2; 2; 1; 0]
  = Some (Some ((7, 11, "A"%string), skipn 3 (finditer ascii_only sky_document)),
          advance tape tape_randbelow 3 [2; 2; 1; 0]).
Proof.
  assert (Hskip : forall j, (j < 2)%nat ->
                            drawn tape tape_randbelow j [2; 2; 1; 0] = Some "O"%string).
  { intros j Hj. destruct j as [|[|j]]; [reflexivity | reflexivity | lia]. }
  split; [reflexivity|]. split; [exact Hskip|]. split; [reflexivity|].
  apply (first_yield ascii_only tape tape_randbelow sky_document [2; 2; 1; 0]
                     2 (7, 11) "A"%string);
    [reflexivity | exact Hskip | reflexivity | now right].
Defined.
